(** * Kernel quadrature estimators ([utils/kernel_means.py])

    The module pairs a kernel with a reference measure and returns
    [phi^T (K + eps I)^-1 f_X]; every estimator has a [_Vectorized]
    counterpart built with [jax.vmap].

    Numbers.  The program computes in floating point; this development
    works in exact arithmetic over an arbitrary real field [R]
    (a [realFieldType]), so [1e-6] is the field element [10^-6], inf and
    NaN have no counterpart, and rounding is not modelled.

    Arrays.  Inside an estimator the arguments have the shapes of its
    docstring and are MathComp matrices: an [(N, D)] array is
    ['M[R]_(N, D)], a one-dimensional [(N,)] array is a row ['rV[R]_N].
    At the call boundary, where [jax.vmap] slices arguments of any rank,
    arrays are the untyped nested values [ndarray].

    The kernel library [utils.kernels] is not part of the sources; its
    Gram-matrix builders and embeddings are parameters of the section. *)

From HB Require Import structures.
From mathcomp Require Import boot order algebra.
From mathcomp Require Import fingroup perm.

Set Implicit Arguments.
Unset Strict Implicit.
Unset Printing Implicit Defensive.

Import Order.TTheory GRing.Theory Num.Theory.
Local Open Scope ring_scope.

(** ** Python results *)

Inductive exn := ValueError | TypeError | IndexError.

Inductive result (A : Type) := Ok of A | Raise of exn.
Arguments Raise {A} e.

Definition bind A B (r : result A) (k : A -> result B) : result B :=
  match r with Ok a => k a | Raise e => Raise e end.

Notation "x <- r ;; k" := (bind r (fun x => k))
  (at level 100, r at next level, right associativity).

(** Runs the computations of a list in order; the first exception wins. *)
Fixpoint sequence A (rs : seq (result A)) : result (seq A) :=
  match rs with
  | [::] => Ok [::]
  | r :: rs' => a <- r ;; s <- sequence rs' ;; Ok (a :: s)
  end.

(** ** The [jax.numpy] operations the module calls *)

Section Jnp.

Variable R : realFieldType.

(** [jnp.eye(N)] *)
Definition eye N : 'M[R]_N := 1%:M.

(** [jnp.ones(D)] *)
Definition ones D : 'rV[R]_D := const_mx 1.

(** [jnp.linalg.inv].  On a singular matrix JAX returns inf/NaN entries;
    [invmx] returns its argument there. *)
Definition linalg_inv N (M : 'M[R]_N) : 'M[R]_N := invmx M.

(** [X.mean(0)]: the mean of each column, a [(D,)] array. *)
Definition mean0 N D (X : 'M[R]_(N, D)) : 'rV[R]_D :=
  \row_j ((\sum_i X i j) / N%:R).

(** [X - r] for [X] of shape [(N, D)] and [r] of shape [(D,)]:
    [r] is broadcast over the rows. *)
Definition sub_rows N D (X : 'M[R]_(N, D)) (r : 'rV[R]_D) : 'M[R]_(N, D) :=
  \matrix_(i, j) (X i j - r 0 j).

(** [jnp.abs], entry by entry. *)
Definition abs N D (X : 'M[R]_(N, D)) : 'M[R]_(N, D) :=
  \matrix_(i, j) `|X i j|.

(** [X.ravel()]: the entries in row-major order. *)
Definition ravel N D (X : 'M[R]_(N, D)) : seq R :=
  [seq X i j | i <- enum 'I_N, j <- enum 'I_D].

(** [jnp.median(a)] with [axis=None] is [jnp.quantile(a, 0.5,
    method='midpoint')] on the flattened array: sort, take the entries at
    [floor((n-1)/2)] and [ceil((n-1)/2)], return [(low + high) * 0.5].
    JAX returns NaN on an empty array; here the empty case reads the
    default [0]. *)
Definition median N D (X : 'M[R]_(N, D)) : R :=
  let a := sort <=%R (ravel X) in
  let n := size a in
  let low_value := nth 0 a (n.-1)./2 in
  let high_value := nth 0 a (uphalf n.-1) in
  (low_value + high_value) * 2^-1.

(** [c * M] with a Python scalar on the left. *)
Definition scalar_mul N D (c : R) (M : 'M[R]_(N, D)) : 'M[R]_(N, D) :=
  \matrix_(i, j) (c * M i j).

(** [M * c] with a Python scalar on the right. *)
Definition mul_scalar N D (M : 'M[R]_(N, D)) (c : R) : 'M[R]_(N, D) :=
  \matrix_(i, j) (M i j * c).

(** [v.T] of a one-dimensional array is the array itself. *)
Definition T1 N (v : 'rV[R]_N) : 'rV[R]_N := v.

(** [v @ M] for [v] of shape [(N,)] and [M] of shape [(N, N)]. *)
Definition matmul_vM N (v : 'rV[R]_N) (M : 'M[R]_N) : 'rV[R]_N :=
  \row_j \sum_i v 0 i * M i j.

(** [u @ v] for two [(N,)] arrays: the inner product, a 0-d array. *)
Definition matmul_vv N (u v : 'rV[R]_N) : R := \sum_i u 0 i * v 0 i.

(** [.squeeze()] of a 0-d array. *)
Definition squeeze (x : R) : R := x.

End Jnp.

(** ** Arrays at the call boundary and [jax.vmap] *)

Section Arrays.

Variable R : realFieldType.

(** An array seen from its leading axis: a 0-d array holds one number, an
    array of rank [k+1] is the sequence of its rank-[k] slices. *)
Inductive ndarray := Scalar of R | Stack of seq ndarray.

(** [a[i]] *)
Definition slice (a : ndarray) (i : nat) : ndarray :=
  if a is Stack xs then nth (Scalar 0) xs i else Scalar 0.

(** The number held by a 0-d array. *)
Definition item (a : ndarray) : R := if a is Scalar x then x else 0.

(** [a.shape], read along the first slice of every axis. *)
Fixpoint shape (a : ndarray) : seq nat :=
  match a with
  | Scalar _ => [::]
  | Stack xs => size xs :: (if xs is x :: _ then shape x else [::])
  end.

(** [a] is rectangular of shape [sh]. *)
Fixpoint has_shape (sh : seq nat) (a : ndarray) {struct a} : bool :=
  match sh, a with
  | [::], Scalar _ => true
  | n :: sh', Stack xs => (size xs == n) && all (has_shape sh') xs
  | _, _ => false
  end.

(** The positional arguments have the shapes listed in [sig]. *)
Definition well_shaped (sig : seq (seq nat)) (args : seq ndarray) : bool :=
  (size sig == size args) && all (fun p => has_shape p.1 p.2) (zip sig args).

(** The array whose slice at [i < T] is [F i]. *)
Definition stack_of T (F : 'I_T -> ndarray) : ndarray :=
  Stack [seq F i | i <- enum 'I_T].

(** Typed arrays as untyped ones, and back. *)
Definition of_rV N (v : 'rV[R]_N) : ndarray :=
  stack_of (fun j => Scalar (v 0 j)).

Definition of_mx N D (M : 'M[R]_(N, D)) : ndarray :=
  stack_of (fun i => of_rV (row i M)).

Definition to_rV N (a : ndarray) : 'rV[R]_N := \row_j item (slice a j).

Definition to_mx N D (a : ndarray) : 'M[R]_(N, D) :=
  \matrix_(i, j) item (slice (slice a i) j).

(** The two [in_axes] entries the module uses: [None] (the argument is
    passed whole to every instance) and [0] (instance [i] receives
    [a[i]]). *)
Inductive axis := NoAxis | Axis0.

(** The sizes of the mapped axes, one per argument with axis [0]; a 0-d
    array cannot be mapped. *)
Fixpoint mapped_sizes (in_axes : seq axis) (args : seq ndarray)
    : result (seq nat) :=
  match in_axes, args with
  | Axis0 :: axs, Stack xs :: args' =>
      s <- mapped_sizes axs args' ;; Ok (size xs :: s)
  | Axis0 :: _, Scalar _ :: _ => Raise ValueError
  | NoAxis :: axs, _ :: args' => mapped_sizes axs args'
  | _, _ => Ok [::]
  end.

Definition in_slice (i : nat) (ax : axis) (a : ndarray) : ndarray :=
  if ax is Axis0 then slice a i else a.

(** [jax.vmap(fun, in_axes)] applied to the positional arguments [args].
    The [in_axes] tuple must have one entry per positional argument, at
    least one argument must be mapped,
    and the mapped axes must agree on their size [T]; the result stacks
    the [T] outputs of [fun] on the slices. *)
Definition vmap (func : seq ndarray -> result ndarray) (in_axes : seq axis)
    (args : seq ndarray) : result ndarray :=
  if size in_axes != size args then Raise ValueError else
  sizes <- mapped_sizes in_axes args ;;
  match sizes with
  | [::] => Raise ValueError
  | T :: sizes' =>
      if all (pred1 T) sizes' then
        outs <- sequence
                  [seq func [seq in_slice i p.1 p.2 | p <- zip in_axes args]
                  | i <- iota 0 T] ;;
        Ok (Stack outs)
      else Raise ValueError
  end.

End Arrays.

(** ** A small kernel library

    An instance of the interface of [utils.kernels] on which the theorems
    can be run: the linear kernel [k(x, y) = x . y + l] (for the product
    kernels, [k(x, y) = sum_d x_d l_d y_d]) and the embedding whose entry
    [i] is the sum of the coordinates of point [i], shifted by the
    measure's parameters. *)

Section ExampleKernels.

Variable R : realFieldType.

Definition linear_kernel N M D (X : 'M[R]_(N, D)) (Y : 'M[R]_(M, D))
    (l : R) : 'M[R]_(N, M) :=
  X *m Y^T + const_mx l.

Definition weighted_kernel N M D (X : 'M[R]_(N, D)) (Y : 'M[R]_(M, D))
    (l : 'rV[R]_D) : 'M[R]_(N, M) :=
  X *m diag_mx l *m Y^T.

Definition sum_embedding N D (c : R) (X : 'M[R]_(N, D)) : 'rV[R]_N :=
  \row_i (c + \sum_j X i j).

(** The embeddings of the library, with the argument order of each one. *)
Definition ex_kme_RBF_Gaussian N D (mu : 'rV[R]_D) (var : 'M[R]_D) (l : R)
    (X : 'M[R]_(N, D)) : 'rV[R]_N :=
  sum_embedding (l + \sum_j mu 0 j) X.

Definition ex_kme_uniform N D (a b l : R) (X : 'M[R]_(N, D)) : 'rV[R]_N :=
  sum_embedding (b - a + l) X.

Definition ex_kme_Gaussian N D (l : R) (X : 'M[R]_(N, D)) : 'rV[R]_N :=
  sum_embedding l X.

Definition ex_kme_product_Gaussian N D (l : 'rV[R]_D) (X : 'M[R]_(N, D))
    : 'rV[R]_N :=
  sum_embedding (\sum_j l 0 j) X.

Definition ex_kme_product_Uniform N D (a b l : 'rV[R]_D)
    (X : 'M[R]_(N, D)) : 'rV[R]_N :=
  sum_embedding (\sum_j (b 0 j - a 0 j) * l 0 j) X.

Definition ex_kme_log_normal N D (mu std : R) (X : 'M[R]_(N, D)) (l : R)
    : 'rV[R]_N :=
  sum_embedding (mu + std + l) X.

End ExampleKernels.

(** ** Single-instance estimators *)

Section KernelMeans.

Variable R : realFieldType.

(** The kernel library, [from utils.kernels import *]: Gram-matrix
    builders [kernel(X, Y, l)] of shape [(N, M)] and kernel mean embeddings
    of shape [(N,)].  The product kernels take a per-dimension length
    scale. *)
Variable my_RBF :
  forall N M D, 'M[R]_(N, D) -> 'M[R]_(M, D) -> R -> 'M[R]_(N, M).
Variable my_Matern_32 :
  forall N M D, 'M[R]_(N, D) -> 'M[R]_(M, D) -> R -> 'M[R]_(N, M).
Variable my_Matern_12 :
  forall N M D, 'M[R]_(N, D) -> 'M[R]_(M, D) -> R -> 'M[R]_(N, M).
Variable my_Matern_12_product :
  forall N M D, 'M[R]_(N, D) -> 'M[R]_(M, D) -> 'rV[R]_D -> 'M[R]_(N, M).
Variable my_Matern_32_product :
  forall N M D, 'M[R]_(N, D) -> 'M[R]_(M, D) -> 'rV[R]_D -> 'M[R]_(N, M).
Variable my_log_RBF :
  forall N M D, 'M[R]_(N, D) -> 'M[R]_(M, D) -> R -> 'M[R]_(N, M).
Variable kme_RBF_Gaussian :
  forall N D, 'rV[R]_D -> 'M[R]_D -> R -> 'M[R]_(N, D) -> 'rV[R]_N.
Variable kme_RBF_uniform :
  forall N D, R -> R -> R -> 'M[R]_(N, D) -> 'rV[R]_N.
Variable kme_Matern_32_Gaussian :
  forall N D, R -> 'M[R]_(N, D) -> 'rV[R]_N.
Variable kme_Matern_12_Gaussian :
  forall N D, 'rV[R]_D -> 'M[R]_(N, D) -> 'rV[R]_N.
Variable kme_Matern_32_Uniform :
  forall N D, 'rV[R]_D -> 'rV[R]_D -> 'rV[R]_D -> 'M[R]_(N, D) -> 'rV[R]_N.
Variable kme_Matern_12_Uniform :
  forall N D, R -> R -> R -> 'M[R]_(N, D) -> 'rV[R]_N.
Variable kme_log_normal_log_RBF :
  forall N D, R -> R -> 'M[R]_(N, D) -> R -> 'rV[R]_N.

(** Every function binds the same two local constants, [eps = 1e-6] and
    [A = 1.0]. *)
Definition eps : R := (10%:R ^+ 6)^-1.
Definition A : R := 1.

Definition KQ_RBF_Gaussian N D (X : 'M[R]_(N, D)) (f_X : 'rV[R]_N)
    (mu_X_theta : 'rV[R]_D) (var_X_theta : 'M[R]_D) : R :=
  let l := median (abs (sub_rows X (mean0 X))) in
  let K := scalar_mul A (my_RBF X X l) in
  let K_inv := linalg_inv (K + scalar_mul eps (eye R N)) in
  let phi := scalar_mul A (kme_RBF_Gaussian mu_X_theta var_X_theta l X) in
  let I_NKQ := matmul_vv (matmul_vM (T1 phi) K_inv) f_X in
  I_NKQ.

Definition KQ_RBF_Uniform N D (X : 'M[R]_(N, D)) (f_X : 'rV[R]_N)
    (a b : R) : R :=
  let l := median (abs (sub_rows X (mean0 X))) in
  let K := scalar_mul A (my_RBF X X l) in
  let K_inv := linalg_inv (K + scalar_mul eps (eye R N)) in
  let phi := scalar_mul A (kme_RBF_uniform a b l X) in
  let I_NKQ := matmul_vv (matmul_vM (T1 phi) K_inv) f_X in
  squeeze I_NKQ.

Definition KQ_Matern_32_Gaussian N D (X : 'M[R]_(N, D)) (f_X : 'rV[R]_N)
    : R :=
  let l := median (abs (sub_rows X (mean0 X))) in
  let K := scalar_mul A (my_Matern_32 X X l) in
  let K_inv := linalg_inv (K + scalar_mul eps (eye R N)) in
  let phi := scalar_mul A (kme_Matern_32_Gaussian l X) in
  let I_NKQ := matmul_vv (matmul_vM (T1 phi) K_inv) f_X in
  squeeze I_NKQ.

Definition KQ_Matern_12_Gaussian N D (X : 'M[R]_(N, D)) (f_X : 'rV[R]_N)
    : R :=
  let l := scalar_mul 1 (ones R D) in
  let K := scalar_mul A (my_Matern_12_product X X l) in
  let K_inv := linalg_inv (K + scalar_mul eps (eye R N)) in
  let phi := scalar_mul A (kme_Matern_12_Gaussian l X) in
  let I_NKQ := matmul_vv (matmul_vM (T1 phi) K_inv) f_X in
  squeeze I_NKQ.

Definition KQ_Matern_32_Uniform N D (X : 'M[R]_(N, D)) (f_X : 'rV[R]_N)
    (a b : 'rV[R]_D) : R :=
  let l := mul_scalar (ones R D) 3 in
  let K := scalar_mul A (my_Matern_32_product X X l) in
  let K_inv := linalg_inv (K + scalar_mul eps (eye R N)) in
  let phi := scalar_mul A (kme_Matern_32_Uniform a b l X) in
  let I_NKQ := matmul_vv (matmul_vM (T1 phi) K_inv) f_X in
  squeeze I_NKQ.

Definition KQ_Matern_12_Uniform N D (X : 'M[R]_(N, D)) (f_X : 'rV[R]_N)
    (a b : R) : R :=
  let l := median (abs (sub_rows X (mean0 X))) in
  let K := scalar_mul A (my_Matern_12 X X l) in
  let K_inv := linalg_inv (K + scalar_mul eps (eye R N)) in
  let phi := scalar_mul A (kme_Matern_12_Uniform a b l X) in
  let I_NKQ := matmul_vv (matmul_vM (T1 phi) K_inv) f_X in
  squeeze I_NKQ.

Definition KQ_log_RBF_log_Gaussian N D (X : 'M[R]_(N, D)) (f_X : 'rV[R]_N)
    (mu std : R) : R :=
  let l := 10%:R^-1 in
  let K := scalar_mul A (my_log_RBF X X l) in
  let K_inv := linalg_inv (K + scalar_mul eps (eye R N)) in
  let phi := scalar_mul A (kme_log_normal_log_RBF mu std X l) in
  let I_NKQ := matmul_vv (matmul_vM (T1 phi) K_inv) f_X in
  I_NKQ.

(** ** The estimators as Python callables

    [jax.vmap] calls the wrapped function on positional arguments.  An
    estimator reads [N, D = X.shape[0], X.shape[1]] and hands its
    arguments to the kernel library; on arguments of the docstring's
    shapes it returns the 0-d result of its body.  What the absent kernel
    library does with other shapes is not in the sources: the callables
    raise there (spec 7: a shape mismatch fails at the point of
    mismatch), and no statement below depends on it. *)

Definition call_KQ_RBF_Gaussian (args : seq (ndarray R)) : result (ndarray R) :=
  if args is [:: X; f_X; mu_X_theta; var_X_theta] then
    if shape X is [:: N, D & _] then
      if well_shaped [:: [:: N; D]; [:: N]; [:: D]; [:: D; D]] args then
        Ok (Scalar (KQ_RBF_Gaussian (to_mx N D X) (to_rV N f_X)
                      (to_rV D mu_X_theta) (to_mx D D var_X_theta)))
      else Raise TypeError
    else Raise IndexError
  else Raise TypeError.

Definition call_KQ_RBF_Uniform (args : seq (ndarray R)) : result (ndarray R) :=
  if args is [:: X; f_X; a; b] then
    if shape X is [:: N, D & _] then
      if well_shaped [:: [:: N; D]; [:: N]; [::]; [::]] args then
        Ok (Scalar (KQ_RBF_Uniform (to_mx N D X) (to_rV N f_X)
                      (item a) (item b)))
      else Raise TypeError
    else Raise IndexError
  else Raise TypeError.

Definition call_KQ_Matern_32_Gaussian (args : seq (ndarray R))
    : result (ndarray R) :=
  if args is [:: X; f_X] then
    if shape X is [:: N, D & _] then
      if well_shaped [:: [:: N; D]; [:: N]] args then
        Ok (Scalar (KQ_Matern_32_Gaussian (to_mx N D X) (to_rV N f_X)))
      else Raise TypeError
    else Raise IndexError
  else Raise TypeError.

Definition call_KQ_Matern_12_Gaussian (args : seq (ndarray R))
    : result (ndarray R) :=
  if args is [:: X; f_X] then
    if shape X is [:: N, D & _] then
      if well_shaped [:: [:: N; D]; [:: N]] args then
        Ok (Scalar (KQ_Matern_12_Gaussian (to_mx N D X) (to_rV N f_X)))
      else Raise TypeError
    else Raise IndexError
  else Raise TypeError.

Definition call_KQ_Matern_32_Uniform (args : seq (ndarray R))
    : result (ndarray R) :=
  if args is [:: X; f_X; a; b] then
    if shape X is [:: N, D & _] then
      if well_shaped [:: [:: N; D]; [:: N]; [:: D]; [:: D]] args then
        Ok (Scalar (KQ_Matern_32_Uniform (to_mx N D X) (to_rV N f_X)
                      (to_rV D a) (to_rV D b)))
      else Raise TypeError
    else Raise IndexError
  else Raise TypeError.

Definition call_KQ_Matern_12_Uniform (args : seq (ndarray R))
    : result (ndarray R) :=
  if args is [:: X; f_X; a; b] then
    if shape X is [:: N, D & _] then
      if well_shaped [:: [:: N; D]; [:: N]; [::]; [::]] args then
        Ok (Scalar (KQ_Matern_12_Uniform (to_mx N D X) (to_rV N f_X)
                      (item a) (item b)))
      else Raise TypeError
    else Raise IndexError
  else Raise TypeError.

Definition call_KQ_log_RBF_log_Gaussian (args : seq (ndarray R))
    : result (ndarray R) :=
  if args is [:: X; f_X; mu; std] then
    if shape X is [:: N, D & _] then
      if well_shaped [:: [:: N; D]; [:: N]; [::]; [::]] args then
        Ok (Scalar (KQ_log_RBF_log_Gaussian (to_mx N D X) (to_rV N f_X)
                      (item mu) (item std)))
      else Raise TypeError
    else Raise IndexError
  else Raise TypeError.

(** ** Batched estimators *)

Definition KQ_RBF_Gaussian_Vectorized (X f_X mu_X_theta var_X_theta : ndarray R)
    : result (ndarray R) :=
  let vmap_func :=
    vmap call_KQ_RBF_Gaussian [:: NoAxis; Axis0; Axis0; Axis0; Axis0] in
  vmap_func [:: X; f_X; mu_X_theta; var_X_theta].

Definition KQ_RBF_Uniform_Vectorized (X f_X a b : ndarray R)
    : result (ndarray R) :=
  let vmap_func :=
    vmap call_KQ_RBF_Uniform [:: Axis0; Axis0; NoAxis; NoAxis] in
  vmap_func [:: X; f_X; a; b].

Definition KQ_Matern_32_Gaussian_Vectorized (X f_X : ndarray R)
    : result (ndarray R) :=
  let vmap_func :=
    vmap call_KQ_Matern_32_Gaussian [:: NoAxis; Axis0; Axis0] in
  vmap_func [:: X; f_X].

Definition KQ_Matern_12_Gaussian_Vectorized (X f_X : ndarray R)
    : result (ndarray R) :=
  let vmap_func := vmap call_KQ_Matern_12_Gaussian [:: Axis0; Axis0] in
  vmap_func [:: X; f_X].

Definition KQ_Matern_32_Uniform_Vectorized (X f_X a b : ndarray R)
    : result (ndarray R) :=
  let vmap_func :=
    vmap call_KQ_Matern_32_Uniform [:: Axis0; Axis0; Axis0; Axis0] in
  vmap_func [:: X; f_X; a; b].

Definition KQ_Matern_12_Uniform_Vectorized (X f_X a b : ndarray R)
    : result (ndarray R) :=
  let vmap_func :=
    vmap call_KQ_Matern_12_Uniform [:: Axis0; Axis0; NoAxis; NoAxis] in
  vmap_func [:: X; f_X; a; b].

Definition KQ_log_RBF_log_Gaussian_Vectorized (X f_X mu std : ndarray R)
    : result (ndarray R) :=
  let vmap_func :=
    vmap call_KQ_log_RBF_log_Gaussian [:: Axis0; Axis0; Axis0; Axis0] in
  vmap_func [:: X; f_X; mu; std].

(** ** The specification's algorithm (spec 4.1 and 4.2)

    These two definitions follow the words of the specification, in
    matrix algebra; the theorems compare them with the functions above. *)

(** Spec 4.2: build [GramMatrix = A . kernel(X, X, l)] with [A = 1.0],
    add [1e-6] on the diagonal and invert; build [phi = A .
    embedding(params, l, X)]; return [phi^T . GramMatrix^-1 . f_X] as a
    scalar.  The length scale [l] of step 1 is an argument. *)
Definition four_step (L : Type) N D
    (kernel : 'M[R]_(N, D) -> 'M[R]_(N, D) -> L -> 'M[R]_N)
    (embedding : L -> 'M[R]_(N, D) -> 'rV[R]_N)
    (l : L) (X : 'M[R]_(N, D)) (f_X : 'rV[R]_N) : R :=
  let GramMatrix := 1 *: kernel X X l + ((10%:R ^+ 6)^-1)%:M in
  let phi := 1 *: embedding l X in
  (phi *m invmx GramMatrix *m f_X^T) 0 0.

(** The median of a list: the middle entry of the sorted list, or the
    mean of the two middle entries when the length is even. *)
Definition list_median (s : seq R) : R :=
  let t := sort <=%R s in
  if odd (size t) then nth 0 t (size t)./2
  else (nth 0 t (size t)./2.-1 + nth 0 t (size t)./2) / 2.

(** Spec 4.1: [l = median(|X - mean(X, axis=0)|)] over all [N * D]
    entries. *)
Definition median_heuristic N D (X : 'M[R]_(N, D)) : R :=
  list_median
    [seq `|X i j - (\sum_k X k j) / N%:R| | i <- enum 'I_N, j <- enum 'I_D].

(** A kernel matrix is symmetric positive semi-definite. *)
Definition symmetric N (K : 'M[R]_N) : Prop := K^T = K.

Definition positive_semidefinite N (K : 'M[R]_N) : Prop :=
  forall v : 'rV[R]_N, 0 <= (v *m K *m v^T) 0 0.

(** The kernel library works point by point: reordering the sample points
    reorders the rows and columns of the Gram matrix, and the entries of
    the embedding, in the same way. *)
Definition gram_equivariant (L : Type) N D
    (kernel : 'M[R]_(N, D) -> 'M[R]_(N, D) -> L -> 'M[R]_N) : Prop :=
  forall (s : {perm 'I_N}) X l,
    kernel (row_perm s X) (row_perm s X) l
    = row_perm s (col_perm s (kernel X X l)).

Definition embedding_equivariant (L : Type) N D
    (embedding : L -> 'M[R]_(N, D) -> 'rV[R]_N) : Prop :=
  forall (s : {perm 'I_N}) l X,
    embedding l (row_perm s X) = col_perm s (embedding l X).

(** [estimate] is a quadrature rule for the Gram matrix [K] and the
    embedding [phi]: its value is [sum_i w[i] * f_X[i]] for the one weight
    vector [w] that solves [w (A K + eps I) = A phi]. *)
Definition quadrature_rule N (K : 'M[R]_N) (phi : 'rV[R]_N)
    (estimate : 'rV[R]_N -> R) : Prop :=
  exists w : 'rV[R]_N,
    [/\ matmul_vM w (scalar_mul A K + scalar_mul eps (eye R N))
        = scalar_mul A phi,
        forall w' : 'rV[R]_N,
          matmul_vM w' (scalar_mul A K + scalar_mul eps (eye R N))
          = scalar_mul A phi -> w' = w
      & forall f_X, estimate f_X = matmul_vv w f_X].

(** ** The array operations in matrix algebra *)

Lemma scalar_mulE N D (c : R) (M : 'M[R]_(N, D)) : scalar_mul c M = c *: M.
Proof. by apply/matrixP => i j; rewrite !mxE. Qed.

Lemma mul_scalarE N D (M : 'M[R]_(N, D)) (c : R) : mul_scalar M c = c *: M.
Proof. by apply/matrixP => i j; rewrite !mxE mulrC. Qed.

Lemma matmul_vME N (v : 'rV[R]_N) (M : 'M[R]_N) : matmul_vM v M = v *m M.
Proof. by apply/rowP => j; rewrite !mxE. Qed.

Lemma matmul_vvE N (u v : 'rV[R]_N) : matmul_vv u v = (u *m v^T) 0 0.
Proof. by rewrite mxE; apply: eq_bigr => i _; rewrite mxE. Qed.

Lemma eps_eyeE N : scalar_mul eps (eye R N) = eps%:M.
Proof. by rewrite scalar_mulE /eye scalemx1. Qed.

Lemma eps_gt0 : 0 < eps.
Proof. by rewrite /eps invr_gt0 exprn_gt0 // ltr0n. Qed.

(** The body shared by the seven estimators is the four-step algorithm. *)
Lemma body_four_step (L : Type) N D
    (kernel : 'M[R]_(N, D) -> 'M[R]_(N, D) -> L -> 'M[R]_N)
    (embedding : L -> 'M[R]_(N, D) -> 'rV[R]_N) l X (f_X : 'rV[R]_N) :
  matmul_vv
    (matmul_vM (T1 (scalar_mul A (embedding l X)))
       (linalg_inv (scalar_mul A (kernel X X l) + scalar_mul eps (eye R N))))
    f_X
  = four_step kernel embedding l X f_X.
Proof.
by rewrite /four_step /T1 /linalg_inv /A matmul_vvE matmul_vME eps_eyeE
           !scalar_mulE.
Qed.

(** ** The length-scale policies *)

Lemma fixed_vector_1 D : scalar_mul 1 (ones R D) = const_mx 1.
Proof. by apply/matrixP => i j; rewrite !mxE mul1r. Qed.

Lemma fixed_vector_3 D : mul_scalar (ones R D) 3 = const_mx 3.
Proof. by apply/matrixP => i j; rewrite !mxE mul1r. Qed.

Lemma ravel_centered N D (X : 'M[R]_(N, D)) :
  ravel (abs (sub_rows X (mean0 X)))
  = [seq `|X i j - (\sum_k X k j) / N%:R| | i <- enum 'I_N, j <- enum 'I_D].
Proof.
rewrite /ravel; apply: eq_allpairs => i j.
by rewrite !mxE.
Qed.

(** The midpoint quantile at 0.5 is the textbook median. *)
Lemma midpoint_list_median (s : seq R) :
  let a := sort <=%R s in
  (nth 0 a (size a).-1./2 + nth 0 a (uphalf (size a).-1)) * 2^-1
  = list_median s.
Proof.
rewrite /list_median /=; set a := sort _ _.
case E: (size a) => [|n] /=.
  by rewrite (size0nil E) /= addr0 mul0r.
rewrite uphalf_half; case: (odd n) => /=; first by rewrite add1n.
by rewrite add0n -mulr2n -mulr_natr mulfK // pnatr_eq0.
Qed.

Lemma median_heuristicE N D (X : 'M[R]_(N, D)) :
  median (abs (sub_rows X (mean0 X))) = median_heuristic X.
Proof.
by rewrite /median /median_heuristic -ravel_centered -midpoint_list_median.
Qed.

(** ** Each estimator is the four-step algorithm at its own length scale *)

Section Bodies.

Variables N D : nat.
Variables (X : 'M[R]_(N, D)) (f_X : 'rV[R]_N).

Lemma KQ_RBF_Gaussian_body mu var :
  KQ_RBF_Gaussian X f_X mu var
  = four_step (@my_RBF N N D) (kme_RBF_Gaussian mu var)
      (median (abs (sub_rows X (mean0 X)))) X f_X.
Proof. exact: body_four_step. Qed.

Lemma KQ_RBF_Uniform_body a b :
  KQ_RBF_Uniform X f_X a b
  = four_step (@my_RBF N N D) (kme_RBF_uniform a b)
      (median (abs (sub_rows X (mean0 X)))) X f_X.
Proof. exact: body_four_step. Qed.

Lemma KQ_Matern_32_Gaussian_body :
  KQ_Matern_32_Gaussian X f_X
  = four_step (@my_Matern_32 N N D) (@kme_Matern_32_Gaussian N D)
      (median (abs (sub_rows X (mean0 X)))) X f_X.
Proof. exact: body_four_step. Qed.

Lemma KQ_Matern_12_Gaussian_body :
  KQ_Matern_12_Gaussian X f_X
  = four_step (@my_Matern_12_product N N D) (@kme_Matern_12_Gaussian N D)
      (scalar_mul 1 (ones R D)) X f_X.
Proof. exact: body_four_step. Qed.

Lemma KQ_Matern_32_Uniform_body a b :
  KQ_Matern_32_Uniform X f_X a b
  = four_step (@my_Matern_32_product N N D) (kme_Matern_32_Uniform a b)
      (mul_scalar (ones R D) 3) X f_X.
Proof. exact: body_four_step. Qed.

Lemma KQ_Matern_12_Uniform_body a b :
  KQ_Matern_12_Uniform X f_X a b
  = four_step (@my_Matern_12 N N D) (kme_Matern_12_Uniform a b)
      (median (abs (sub_rows X (mean0 X)))) X f_X.
Proof. exact: body_four_step. Qed.

Lemma KQ_log_RBF_log_Gaussian_body mu std :
  KQ_log_RBF_log_Gaussian X f_X mu std
  = four_step (@my_log_RBF N N D)
      (fun l X' => kme_log_normal_log_RBF mu std X' l) 10%:R^-1 X f_X.
Proof.
exact: (body_four_step (@my_log_RBF N N D)
          (fun l X' => kme_log_normal_log_RBF mu std X' l)).
Qed.

End Bodies.

(** C3.  Every single-instance estimator is the four-step algorithm of
    spec 4.2 with [A = 1.0] and [eps = 1e-6]: with the length scale [l] of
    its policy (the median of [|X - X.mean(0)|], or its constant), it forms
    [K = A * kernel(X, X, l)], inverts [K + eps * I], forms
    [phi = A * embedding(params, l, X)] and returns the scalar
    [phi^T (K + eps I)^-1 f_X]. *)
Theorem estimators_are_four_step N D (X : 'M[R]_(N, D)) (f_X : 'rV[R]_N) :
  let l_median := median (abs (sub_rows X (mean0 X))) in
  (forall mu var,
     KQ_RBF_Gaussian X f_X mu var
     = four_step (@my_RBF N N D) (kme_RBF_Gaussian mu var) l_median X f_X)
  /\ (forall a b,
     KQ_RBF_Uniform X f_X a b
     = four_step (@my_RBF N N D) (kme_RBF_uniform a b) l_median X f_X)
  /\ KQ_Matern_32_Gaussian X f_X
     = four_step (@my_Matern_32 N N D) (@kme_Matern_32_Gaussian N D)
         l_median X f_X
  /\ KQ_Matern_12_Gaussian X f_X
     = four_step (@my_Matern_12_product N N D) (@kme_Matern_12_Gaussian N D)
         (scalar_mul 1 (ones R D)) X f_X
  /\ (forall a b,
     KQ_Matern_32_Uniform X f_X a b
     = four_step (@my_Matern_32_product N N D) (kme_Matern_32_Uniform a b)
         (mul_scalar (ones R D) 3) X f_X)
  /\ (forall a b,
     KQ_Matern_12_Uniform X f_X a b
     = four_step (@my_Matern_12 N N D) (kme_Matern_12_Uniform a b)
         l_median X f_X)
  /\ (forall mu std,
     KQ_log_RBF_log_Gaussian X f_X mu std
     = four_step (@my_log_RBF N N D)
         (fun l X' => kme_log_normal_log_RBF mu std X' l) 10%:R^-1 X f_X).
Proof.
move=> l_median; do !split.
- exact: KQ_RBF_Gaussian_body.
- exact: KQ_RBF_Uniform_body.
- exact: KQ_Matern_32_Gaussian_body.
- exact: KQ_Matern_12_Gaussian_body.
- exact: KQ_Matern_32_Uniform_body.
- exact: KQ_Matern_12_Uniform_body.
- exact: KQ_log_RBF_log_Gaussian_body.
Qed.

(** C4.  The hardcoded policies use the constants of the spec's table,
    whatever the sample set: Matern-1/2-Gaussian the per-dimension vector
    of 1.0, Matern-3/2-Uniform the per-dimension vector of 3.0, and
    log-RBF-log-Gaussian the scalar 0.1. *)
Theorem hardcoded_length_scales N D (X : 'M[R]_(N, D)) (f_X : 'rV[R]_N) :
  KQ_Matern_12_Gaussian X f_X
  = four_step (@my_Matern_12_product N N D) (@kme_Matern_12_Gaussian N D)
      (const_mx 1) X f_X
  /\ (forall a b,
     KQ_Matern_32_Uniform X f_X a b
     = four_step (@my_Matern_32_product N N D) (kme_Matern_32_Uniform a b)
         (const_mx 3) X f_X)
  /\ (forall mu std,
     KQ_log_RBF_log_Gaussian X f_X mu std
     = four_step (@my_log_RBF N N D)
         (fun l X' => kme_log_normal_log_RBF mu std X' l) (1 / 10) X f_X).
Proof.
split; last split.
- by rewrite KQ_Matern_12_Gaussian_body fixed_vector_1.
- by move=> a b; rewrite KQ_Matern_32_Uniform_body fixed_vector_3.
- by move=> mu std; rewrite KQ_log_RBF_log_Gaussian_body div1r.
Qed.

(** C5.  The median-heuristic variants (RBF-Gaussian, RBF-Uniform,
    Matern-3/2-Gaussian, Matern-1/2-Uniform) use the single scalar
    [l = median(|X - mean(X, axis=0)|)] taken over all entries of the
    sample set. *)
Theorem median_heuristic_length_scales N D (X : 'M[R]_(N, D))
    (f_X : 'rV[R]_N) :
  (forall mu var,
     KQ_RBF_Gaussian X f_X mu var
     = four_step (@my_RBF N N D) (kme_RBF_Gaussian mu var)
         (median_heuristic X) X f_X)
  /\ (forall a b,
     KQ_RBF_Uniform X f_X a b
     = four_step (@my_RBF N N D) (kme_RBF_uniform a b)
         (median_heuristic X) X f_X)
  /\ KQ_Matern_32_Gaussian X f_X
     = four_step (@my_Matern_32 N N D) (@kme_Matern_32_Gaussian N D)
         (median_heuristic X) X f_X
  /\ (forall a b,
     KQ_Matern_12_Uniform X f_X a b
     = four_step (@my_Matern_12 N N D) (kme_Matern_12_Uniform a b)
         (median_heuristic X) X f_X).
Proof.
do !split.
- by move=> mu var; rewrite KQ_RBF_Gaussian_body median_heuristicE.
- by move=> a b; rewrite KQ_RBF_Uniform_body median_heuristicE.
- by rewrite KQ_Matern_32_Gaussian_body median_heuristicE.
- by move=> a b; rewrite KQ_Matern_12_Uniform_body median_heuristicE.
Qed.

(** ** Linearity in the function values *)

Lemma four_step_linear (L : Type) N D
    (kernel : 'M[R]_(N, D) -> 'M[R]_(N, D) -> L -> 'M[R]_N)
    (embedding : L -> 'M[R]_(N, D) -> 'rV[R]_N) l X c1 c2
    (f_X1 f_X2 : 'rV[R]_N) :
  four_step kernel embedding l X (scalar_mul c1 f_X1 + scalar_mul c2 f_X2)
  = c1 * four_step kernel embedding l X f_X1
    + c2 * four_step kernel embedding l X f_X2.
Proof.
rewrite /four_step /= !scalar_mulE linearD /= 2!linearZ /= mulmxDr.
by rewrite -!scalemxAr !mxE.
Qed.


(** ** One sample point *)

Lemma invmx11 (M : 'M[R]_1) : invmx M = ((M 0 0)^-1)%:M.
Proof. by rewrite [in LHS](mx11_scalar M) invmx_scalar. Qed.

Lemma four_step_one_point (L : Type) D
    (kernel : 'M[R]_(1, D) -> 'M[R]_(1, D) -> L -> 'M[R]_1)
    (embedding : L -> 'M[R]_(1, D) -> 'rV[R]_1) l X (f_X : 'rV[R]_1) :
  four_step kernel embedding l X f_X
  = A * embedding l X 0 0 / (A * kernel X X l 0 0 + eps) * f_X 0 0.
Proof.
rewrite /four_step /A /eps /= invmx11 mul_mx_scalar !mxE big_ord1 !mxE.
by rewrite eqxx mulr1n [_^-1 * _]mulrC.
Qed.

(** C9.  With a single sample point ([N = 1]) every estimator returns
    [(A * embedding_value / (A * kernel_value + eps)) * f_X[0]], where
    [kernel_value = kernel(X, X, l)[0, 0]] and
    [embedding_value = embedding(params, l, X)[0]] at the variant's length
    scale [l], [A = 1.0] and [eps = 1e-6]. *)
Theorem one_point_estimate D (X : 'M[R]_(1, D)) (f_X : 'rV[R]_1) :
  let l_median := median (abs (sub_rows X (mean0 X))) in
  (forall mu var,
     KQ_RBF_Gaussian X f_X mu var
     = A * kme_RBF_Gaussian mu var l_median X 0 0
       / (A * my_RBF X X l_median 0 0 + eps) * f_X 0 0)
  /\ (forall a b,
     KQ_RBF_Uniform X f_X a b
     = A * kme_RBF_uniform a b l_median X 0 0
       / (A * my_RBF X X l_median 0 0 + eps) * f_X 0 0)
  /\ KQ_Matern_32_Gaussian X f_X
     = A * kme_Matern_32_Gaussian l_median X 0 0
       / (A * my_Matern_32 X X l_median 0 0 + eps) * f_X 0 0
  /\ KQ_Matern_12_Gaussian X f_X
     = A * kme_Matern_12_Gaussian (const_mx 1) X 0 0
       / (A * my_Matern_12_product X X (const_mx 1) 0 0 + eps) * f_X 0 0
  /\ (forall a b,
     KQ_Matern_32_Uniform X f_X a b
     = A * kme_Matern_32_Uniform a b (const_mx 3) X 0 0
       / (A * my_Matern_32_product X X (const_mx 3) 0 0 + eps) * f_X 0 0)
  /\ (forall a b,
     KQ_Matern_12_Uniform X f_X a b
     = A * kme_Matern_12_Uniform a b l_median X 0 0
       / (A * my_Matern_12 X X l_median 0 0 + eps) * f_X 0 0)
  /\ (forall mu std,
     KQ_log_RBF_log_Gaussian X f_X mu std
     = A * kme_log_normal_log_RBF mu std X (1 / 10) 0 0
       / (A * my_log_RBF X X (1 / 10) 0 0 + eps) * f_X 0 0).
Proof.
move=> l_median; do !split.
- by move=> mu var; rewrite KQ_RBF_Gaussian_body four_step_one_point.
- by move=> a b; rewrite KQ_RBF_Uniform_body four_step_one_point.
- by rewrite KQ_Matern_32_Gaussian_body four_step_one_point.
- by rewrite KQ_Matern_12_Gaussian_body four_step_one_point fixed_vector_1.
- move=> a b.
  by rewrite KQ_Matern_32_Uniform_body four_step_one_point fixed_vector_3.
- by move=> a b; rewrite KQ_Matern_12_Uniform_body four_step_one_point.
- move=> mu std.
  by rewrite KQ_log_RBF_log_Gaussian_body four_step_one_point div1r.
Qed.

(** ** Regularisation *)

Lemma norm2_ge0 N (v : 'rV[R]_N) : 0 <= (v *m v^T) 0 0.
Proof.
rewrite mxE; apply: sumr_ge0 => i _.
by rewrite mxE -expr2 sqr_ge0.
Qed.

Lemma norm2_gt0 N (v : 'rV[R]_N) : v != 0 -> 0 < (v *m v^T) 0 0.
Proof.
move=> v_neq0; rewrite lt_neqAle norm2_ge0 andbT eq_sym.
apply: contra_neq v_neq0; rewrite mxE => sum0.
have sq_ge0 (i : 'I_N) : true -> 0 <= v 0 i * v^T i 0.
  by rewrite mxE -expr2 sqr_ge0.
apply/rowP => i; have /(_ i isT) /eqP := psumr_eq0P sq_ge0 sum0.
by rewrite !mxE mulf_eq0 orbb => /eqP.
Qed.

Lemma regularized_form N (K : 'M[R]_N) (v : 'rV[R]_N) :
  (v *m (scalar_mul A K + scalar_mul eps (eye R N)) *m v^T) 0 0
  = (v *m K *m v^T) 0 0 + eps * (v *m v^T) 0 0.
Proof.
rewrite eps_eyeE scalar_mulE /A scale1r mulmxDr mulmxDl mxE.
by rewrite mul_mx_scalar -scalemxAl [X in _ + X]mxE.
Qed.

Lemma regularized_rayleigh N (K : 'M[R]_N) (v : 'rV[R]_N) :
  positive_semidefinite K ->
  eps * (v *m v^T) 0 0
  <= (v *m (scalar_mul A K + scalar_mul eps (eye R N)) *m v^T) 0 0.
Proof. by move=> psdK; rewrite regularized_form lerDr. Qed.

Lemma regularized_eigenvalue N (K : 'M[R]_N) (a : R) :
  positive_semidefinite K ->
  eigenvalue (scalar_mul A K + scalar_mul eps (eye R N)) a -> eps <= a.
Proof.
move=> psdK /eigenvalueP[v va v_neq0].
have := regularized_rayleigh v psdK.
by rewrite va -scalemxAl [X in _ <= X]mxE ler_pM2r // norm2_gt0.
Qed.

Lemma regularized_unit N (K : 'M[R]_N) :
  positive_semidefinite K ->
  scalar_mul A K + scalar_mul eps (eye R N) \in unitmx.
Proof.
move=> psdK; rewrite -row_free_unit -kermx_eq0.
apply/negPn/negP => /rowV0Pn[v /sub_kermxP vK v_neq0].
have := regularized_rayleigh v psdK.
rewrite vK mul0mx [X in _ <= X]mxE leNgt pmulr_rgt0 ?eps_gt0 //.
by rewrite norm2_gt0.
Qed.


(** ** Identical sample points *)

Lemma nth_all0 (s : seq R) i : all (pred1 0) s -> nth 0 s i = 0.
Proof. by move=> /all_pred1P->; rewrite nth_nseq; case: ifP. Qed.

Lemma centered_identical N D (X : 'M[R]_(N, D)) :
  (0 < N)%N -> (forall i i' j, X i j = X i' j) ->
  abs (sub_rows X (mean0 X)) = 0.
Proof.
move=> N_gt0 sameX; apply/matrixP => i j; rewrite !mxE.
have -> : \sum_k X k j = \sum_(k < N) X i j.
  by apply: eq_bigr => k _; apply: sameX.
rewrite sumr_const card_ord -mulr_natr mulfK ?subrr ?normr0 //.
by rewrite pnatr_eq0 -lt0n.
Qed.

Lemma median_zero N D : median (0 : 'M[R]_(N, D)) = 0.
Proof.
have all0 : all (pred1 0) (sort <=%R (ravel (0 : 'M[R]_(N, D)))).
  by rewrite all_sort; apply/all_allpairsP => i j _ _; rewrite mxE /=.
by rewrite /median /= !nth_all0 // addr0 mul0r.
Qed.

Lemma median_identical N D (X : 'M[R]_(N, D)) :
  (0 < N)%N -> (forall i i' j, X i j = X i' j) ->
  median (abs (sub_rows X (mean0 X))) = 0.
Proof. by move=> N_gt0 sameX; rewrite centered_identical // median_zero. Qed.


(** ** Untyped arrays *)

Lemma slice_stack_of T (F : 'I_T -> ndarray R) (i : 'I_T) :
  slice (stack_of F) i = F i.
Proof.
by rewrite /slice /stack_of (nth_map i) ?size_enum_ord // nth_ord_enum.
Qed.

Lemma has_shape_stack_of sh T (F : 'I_T -> ndarray R) :
  (forall i, has_shape sh (F i)) -> has_shape (T :: sh) (stack_of F).
Proof.
move=> shF; rewrite /= size_map size_enum_ord eqxx /=.
by rewrite all_map; apply/allP => i _ /=.
Qed.

Lemma has_shape_of_rV N (v : 'rV[R]_N) : has_shape [:: N] (of_rV v).
Proof. exact: has_shape_stack_of. Qed.

Lemma has_shape_of_mx N D (M : 'M[R]_(N, D)) :
  has_shape [:: N; D] (of_mx M).
Proof. by apply: has_shape_stack_of => i; apply: has_shape_of_rV. Qed.

Lemma shape_of_rV N (v : 'rV[R]_N) : shape (of_rV v) = [:: N].
Proof.
by rewrite /= size_map size_enum_ord; case: (enum _).
Qed.

Lemma shape_of_mx N D (M : 'M[R]_(N.+1, D)) :
  shape (of_mx M) = [:: N.+1; D].
Proof.
rewrite /= size_map size_enum_ord enum_ordSl /= size_map size_enum_ord.
by case: (enum 'I_D).
Qed.

Lemma of_rVK N (v : 'rV[R]_N) : to_rV N (of_rV v) = v.
Proof. by apply/rowP => j; rewrite mxE slice_stack_of. Qed.

Lemma of_mxK N D (M : 'M[R]_(N, D)) : to_mx N D (of_mx M) = M.
Proof.
by apply/matrixP => i j; rewrite mxE !slice_stack_of /= mxE.
Qed.

(** ** [jax.vmap] on a well-formed batch *)

Lemma sequence_map (I B : Type) (f : I -> result B) (g : I -> B)
    (s : seq I) :
  (forall i, f i = Ok (g i)) -> sequence [seq f i | i <- s] = Ok (map g s).
Proof. by move=> fg; elim: s => //= i s ->; rewrite fg. Qed.

Lemma vmap_stack func in_axes args T sizes (out : 'I_T -> ndarray R) :
  size in_axes = size args ->
  mapped_sizes in_axes args = Ok (T :: sizes) ->
  all (pred1 T) sizes ->
  (forall i : 'I_T,
     func [seq in_slice i p.1 p.2 | p <- zip in_axes args] = Ok (out i)) ->
  vmap func in_axes args = Ok (stack_of out).
Proof.
move=> size_axes sizesE same_size func_out.
rewrite /vmap size_axes eqxx /= sizesE /= same_size.
by rewrite -val_enum_ord -map_comp (sequence_map _ func_out).
Qed.

(** A tuple of [in_axes] that is longer or shorter than the argument list
    is refused before the function is called. *)
Lemma vmap_arity func in_axes (args : seq (ndarray R)) :
  size in_axes != size args -> vmap func in_axes args = Raise ValueError.
Proof. by rewrite /vmap => ->. Qed.

(** ** The callables on arguments of the documented shapes *)

Section Calls.

Variables N D : nat.
Variables (X : 'M[R]_(N.+1, D)) (f_X : 'rV[R]_N.+1).

Lemma well_shaped2 (sh1 sh2 : seq nat) (a1 a2 : ndarray R) :
  has_shape sh1 a1 -> has_shape sh2 a2 ->
  well_shaped [:: sh1; sh2] [:: a1; a2].
Proof. by rewrite /well_shaped /= => -> ->. Qed.

Lemma well_shaped4 (sh1 sh2 sh3 sh4 : seq nat) (a1 a2 a3 a4 : ndarray R) :
  has_shape sh1 a1 -> has_shape sh2 a2 ->
  has_shape sh3 a3 -> has_shape sh4 a4 ->
  well_shaped [:: sh1; sh2; sh3; sh4] [:: a1; a2; a3; a4].
Proof. by rewrite /well_shaped /= => -> -> -> ->. Qed.

Lemma call_KQ_RBF_GaussianE (mu : 'rV[R]_D) (var : 'M[R]_D) :
  call_KQ_RBF_Gaussian [:: of_mx X; of_rV f_X; of_rV mu; of_mx var]
  = Ok (Scalar (KQ_RBF_Gaussian X f_X mu var)).
Proof.
rewrite /call_KQ_RBF_Gaussian shape_of_mx well_shaped4 ?has_shape_of_mx
        ?has_shape_of_rV //.
by rewrite !of_mxK !of_rVK.
Qed.

Lemma call_KQ_RBF_UniformE (a b : R) :
  call_KQ_RBF_Uniform [:: of_mx X; of_rV f_X; Scalar a; Scalar b]
  = Ok (Scalar (KQ_RBF_Uniform X f_X a b)).
Proof.
rewrite /call_KQ_RBF_Uniform shape_of_mx well_shaped4 ?has_shape_of_mx
        ?has_shape_of_rV //.
by rewrite !of_mxK !of_rVK.
Qed.

Lemma call_KQ_Matern_32_GaussianE :
  call_KQ_Matern_32_Gaussian [:: of_mx X; of_rV f_X]
  = Ok (Scalar (KQ_Matern_32_Gaussian X f_X)).
Proof.
rewrite /call_KQ_Matern_32_Gaussian shape_of_mx well_shaped2
        ?has_shape_of_mx ?has_shape_of_rV //.
by rewrite !of_mxK !of_rVK.
Qed.

Lemma call_KQ_Matern_12_GaussianE :
  call_KQ_Matern_12_Gaussian [:: of_mx X; of_rV f_X]
  = Ok (Scalar (KQ_Matern_12_Gaussian X f_X)).
Proof.
rewrite /call_KQ_Matern_12_Gaussian shape_of_mx well_shaped2
        ?has_shape_of_mx ?has_shape_of_rV //.
by rewrite !of_mxK !of_rVK.
Qed.

Lemma call_KQ_Matern_32_UniformE (a b : 'rV[R]_D) :
  call_KQ_Matern_32_Uniform [:: of_mx X; of_rV f_X; of_rV a; of_rV b]
  = Ok (Scalar (KQ_Matern_32_Uniform X f_X a b)).
Proof.
rewrite /call_KQ_Matern_32_Uniform shape_of_mx well_shaped4
        ?has_shape_of_mx ?has_shape_of_rV //.
by rewrite !of_mxK !of_rVK.
Qed.

Lemma call_KQ_Matern_12_UniformE (a b : R) :
  call_KQ_Matern_12_Uniform [:: of_mx X; of_rV f_X; Scalar a; Scalar b]
  = Ok (Scalar (KQ_Matern_12_Uniform X f_X a b)).
Proof.
rewrite /call_KQ_Matern_12_Uniform shape_of_mx well_shaped4
        ?has_shape_of_mx ?has_shape_of_rV //.
by rewrite !of_mxK !of_rVK.
Qed.

Lemma call_KQ_log_RBF_log_GaussianE (mu std : R) :
  call_KQ_log_RBF_log_Gaussian [:: of_mx X; of_rV f_X; Scalar mu; Scalar std]
  = Ok (Scalar (KQ_log_RBF_log_Gaussian X f_X mu std)).
Proof.
rewrite /call_KQ_log_RBF_log_Gaussian shape_of_mx well_shaped4
        ?has_shape_of_mx ?has_shape_of_rV //.
by rewrite !of_mxK !of_rVK.
Qed.

End Calls.

(** ** Batched estimators on a batch of size [T]

    A batch is given by its slices: [X t] is the sample set of instance
    [t < T], [f_X t] its function values. *)

Section Batches.

Variables T N D : nat.
Variables (X : 'I_T -> 'M[R]_(N.+1, D)) (f_X : 'I_T -> 'rV[R]_N.+1).

Let Xs : ndarray R := stack_of (fun t => of_mx (X t)).
Let fs : ndarray R := stack_of (fun t => of_rV (f_X t)).

Lemma size_stack_of (F : 'I_T -> ndarray R) :
  size [seq F i | i <- enum 'I_T] = T.
Proof. by rewrite size_map size_enum_ord. Qed.

Lemma KQ_RBF_Uniform_Vectorized_slices (a b : R) :
  KQ_RBF_Uniform_Vectorized Xs fs (Scalar a) (Scalar b)
  = Ok (stack_of (fun t => Scalar (KQ_RBF_Uniform (X t) (f_X t) a b))).
Proof.
apply: (@vmap_stack _ _ _ T [:: T]) => [//|||t].
- by rewrite /= !size_stack_of.
- by rewrite /= eqxx.
- rewrite [LHS](_ : _ = call_KQ_RBF_Uniform
                          [:: slice Xs t; slice fs t; Scalar a; Scalar b]) //.
  by rewrite !slice_stack_of call_KQ_RBF_UniformE.
Qed.

Lemma KQ_Matern_12_Uniform_Vectorized_slices (a b : R) :
  KQ_Matern_12_Uniform_Vectorized Xs fs (Scalar a) (Scalar b)
  = Ok (stack_of (fun t => Scalar (KQ_Matern_12_Uniform (X t) (f_X t) a b))).
Proof.
apply: (@vmap_stack _ _ _ T [:: T]) => [//|||t].
- by rewrite /= !size_stack_of.
- by rewrite /= eqxx.
- rewrite [LHS](_ : _ = call_KQ_Matern_12_Uniform
                          [:: slice Xs t; slice fs t; Scalar a; Scalar b]) //.
  by rewrite !slice_stack_of call_KQ_Matern_12_UniformE.
Qed.

Lemma KQ_Matern_32_Uniform_Vectorized_slices (a b : 'I_T -> 'rV[R]_D) :
  let As := stack_of (fun t => of_rV (a t)) in
  let Bs := stack_of (fun t => of_rV (b t)) in
  KQ_Matern_32_Uniform_Vectorized Xs fs As Bs
  = Ok (stack_of (fun t =>
          Scalar (KQ_Matern_32_Uniform (X t) (f_X t) (a t) (b t)))).
Proof.
move=> As Bs; apply: (@vmap_stack _ _ _ T [:: T; T; T]) => [//|||t].
- by rewrite /= !size_stack_of.
- by rewrite /= !eqxx.
- rewrite [LHS](_ : _ = call_KQ_Matern_32_Uniform
                          [:: slice Xs t; slice fs t; slice As t; slice Bs t])
    //.
  by rewrite !slice_stack_of call_KQ_Matern_32_UniformE.
Qed.

Lemma KQ_Matern_12_Gaussian_Vectorized_slices :
  KQ_Matern_12_Gaussian_Vectorized Xs fs
  = Ok (stack_of (fun t => Scalar (KQ_Matern_12_Gaussian (X t) (f_X t)))).
Proof.
apply: (@vmap_stack _ _ _ T [:: T]) => [//|||t].
- by rewrite /= !size_stack_of.
- by rewrite /= eqxx.
- rewrite [LHS](_ : _ = call_KQ_Matern_12_Gaussian
                          [:: slice Xs t; slice fs t]) //.
  by rewrite !slice_stack_of call_KQ_Matern_12_GaussianE.
Qed.

Lemma KQ_log_RBF_log_Gaussian_Vectorized_slices (mu std : 'rV[R]_T) :
  KQ_log_RBF_log_Gaussian_Vectorized Xs fs (of_rV mu) (of_rV std)
  = Ok (stack_of (fun t =>
          Scalar (KQ_log_RBF_log_Gaussian (X t) (f_X t) (mu 0 t) (std 0 t)))).
Proof.
apply: (@vmap_stack _ _ _ T [:: T; T; T]) => [//|||t].
- by rewrite /= !size_stack_of.
- by rewrite /= !eqxx.
- rewrite [LHS](_ : _ = call_KQ_log_RBF_log_Gaussian
                          [:: slice Xs t; slice fs t; slice (of_rV mu) t;
                              slice (of_rV std) t]) //.
  by rewrite !slice_stack_of call_KQ_log_RBF_log_GaussianE.
Qed.

(** C6.  Broadcast pattern of the batched estimators: RBF-Uniform and
    Matern-1/2-Uniform take [in_axes = (0, 0, None, None)], so the scalar
    bounds [a], [b] are shared by the whole batch while [X] and [f_X] are
    sliced; Matern-3/2-Uniform takes [in_axes = (0, 0, 0, 0)], so
    instance [t] receives its own [a[t]] and [b[t]] along with [X[t]] and
    [f_X[t]]. *)
Theorem uniform_broadcast_pattern (a b : R) (a_t b_t : 'I_T -> 'rV[R]_D) :
  let As := stack_of (fun t => of_rV (a_t t)) in
  let Bs := stack_of (fun t => of_rV (b_t t)) in
  [/\ KQ_RBF_Uniform_Vectorized Xs fs (Scalar a) (Scalar b)
      = vmap call_KQ_RBF_Uniform
          [:: Axis0; Axis0; NoAxis; NoAxis]
          [:: Xs; fs; Scalar a; Scalar b]
      /\ KQ_RBF_Uniform_Vectorized Xs fs (Scalar a) (Scalar b)
         = Ok (stack_of (fun t =>
                 Scalar (KQ_RBF_Uniform (X t) (f_X t) a b))),
      KQ_Matern_12_Uniform_Vectorized Xs fs (Scalar a) (Scalar b)
      = vmap call_KQ_Matern_12_Uniform
          [:: Axis0; Axis0; NoAxis; NoAxis]
          [:: Xs; fs; Scalar a; Scalar b]
      /\ KQ_Matern_12_Uniform_Vectorized Xs fs (Scalar a) (Scalar b)
         = Ok (stack_of (fun t =>
                 Scalar (KQ_Matern_12_Uniform (X t) (f_X t) a b)))
    & KQ_Matern_32_Uniform_Vectorized Xs fs As Bs
      = vmap call_KQ_Matern_32_Uniform
          [:: Axis0; Axis0; Axis0; Axis0] [:: Xs; fs; As; Bs]
      /\ KQ_Matern_32_Uniform_Vectorized Xs fs As Bs
         = Ok (stack_of (fun t =>
                 Scalar (KQ_Matern_32_Uniform (X t) (f_X t) (a_t t) (b_t t))))].
Proof.
move=> As Bs; split; split=> //.
- exact: KQ_RBF_Uniform_Vectorized_slices.
- exact: KQ_Matern_12_Uniform_Vectorized_slices.
- exact: KQ_Matern_32_Uniform_Vectorized_slices.
Qed.

(** C1 fails on the code for two of the seven wrappers.  For every batch
    of the documented shapes, [X : (T, N, D)], [f_X : (T, N)],
    [mu_X_theta : (T, D)] and [var_X_theta : (T, D, D)], each of the [T]
    single-instance calls on the slices returns its estimate, but
    [KQ_RBF_Gaussian_Vectorized] and [KQ_Matern_32_Gaussian_Vectorized]
    raise [ValueError] instead of returning the vector of estimates. *)
Theorem gaussian_batches_raise (mu : 'I_T -> 'rV[R]_D)
    (var : 'I_T -> 'M[R]_D) :
  let mus := stack_of (fun t => of_rV (mu t)) in
  let vars := stack_of (fun t => of_mx (var t)) in
  [/\ forall t : 'I_T,
        call_KQ_RBF_Gaussian
          [:: slice Xs t; slice fs t; slice mus t; slice vars t]
        = Ok (Scalar (KQ_RBF_Gaussian (X t) (f_X t) (mu t) (var t))),
      KQ_RBF_Gaussian_Vectorized Xs fs mus vars = Raise ValueError,
      forall t : 'I_T,
        call_KQ_Matern_32_Gaussian [:: slice Xs t; slice fs t]
        = Ok (Scalar (KQ_Matern_32_Gaussian (X t) (f_X t)))
    & KQ_Matern_32_Gaussian_Vectorized Xs fs = Raise ValueError].
Proof.
move=> mus vars; split.
- by move=> t; rewrite !slice_stack_of call_KQ_RBF_GaussianE.
- exact: vmap_arity.
- by move=> t; rewrite !slice_stack_of call_KQ_Matern_32_GaussianE.
- exact: vmap_arity.
Qed.

End Batches.

(** The smallest such batch, [T = N = D = 1]: [X = [[[0.]]]],
    [f_X = [[1.]]], [mu_X_theta = [[0.]]], [var_X_theta = [[[1.]]]]. *)
Lemma gaussian_batch_example :
  let X := Stack [:: Stack [:: Stack [:: Scalar (0 : R)]]] in
  let f_X := Stack [:: Stack [:: Scalar (1 : R)]] in
  let mu_X_theta := Stack [:: Stack [:: Scalar (0 : R)]] in
  let var_X_theta := Stack [:: Stack [:: Stack [:: Scalar (1 : R)]]] in
  KQ_RBF_Gaussian_Vectorized X f_X mu_X_theta var_X_theta = Raise ValueError
  /\ KQ_Matern_32_Gaussian_Vectorized X f_X = Raise ValueError
  /\ call_KQ_RBF_Gaussian
       [:: slice X 0; slice f_X 0; slice mu_X_theta 0; slice var_X_theta 0]
     = Ok (Scalar (KQ_RBF_Gaussian
                     (to_mx 1 1 (slice X 0)) (to_rV 1 (slice f_X 0))
                     (to_rV 1 (slice mu_X_theta 0))
                     (to_mx 1 1 (slice var_X_theta 0))))
  /\ call_KQ_Matern_32_Gaussian [:: slice X 0; slice f_X 0]
     = Ok (Scalar (KQ_Matern_32_Gaussian
                     (to_mx 1 1 (slice X 0)) (to_rV 1 (slice f_X 0)))).
Proof. by []. Qed.

(** C2.  [KQ_RBF_Gaussian_Vectorized] and
    [KQ_Matern_32_Gaussian_Vectorized] raise on every input: the first
    gives [jax.vmap] five [in_axes] entries, led by [None] for [X], for
    the four arguments of [KQ_RBF_Gaussian]; the second gives three
    entries, led by [None] for [X], for the two arguments of
    [KQ_Matern_32_Gaussian].  [jax.vmap] refuses such a tuple whatever
    the wrapped function and the arrays are. *)
Theorem gaussian_wrappers_always_raise :
  [/\ forall X f_X mu_X_theta var_X_theta : ndarray R,
        KQ_RBF_Gaussian_Vectorized X f_X mu_X_theta var_X_theta
        = Raise ValueError,
      forall X f_X : ndarray R,
        KQ_Matern_32_Gaussian_Vectorized X f_X = Raise ValueError,
      forall func (X f_X mu_X_theta var_X_theta : ndarray R),
        vmap func [:: NoAxis; Axis0; Axis0; Axis0; Axis0]
          [:: X; f_X; mu_X_theta; var_X_theta]
        = Raise ValueError
    & forall func (X f_X : ndarray R),
        vmap func [:: NoAxis; Axis0; Axis0] [:: X; f_X] = Raise ValueError].
Proof. by split. Qed.

(** ** The median-heuristic length scale *)

Lemma nth_ge0 (s : seq R) i : all (fun x => 0 <= x) s -> 0 <= nth 0 s i.
Proof.
move=> /all_nthP s_ge0; case: (ltnP i (size s)) => [lt_i | le_i].
  exact: s_ge0.
by rewrite nth_default.
Qed.

Lemma median_ge0 N D (M : 'M[R]_(N, D)) :
  (forall i j, 0 <= M i j) -> 0 <= median M.
Proof.
move=> M_ge0.
have all_ge0 : all (fun x => 0 <= x) (sort <=%R (ravel M)).
  by rewrite all_sort; apply/all_allpairsP => i j _ _ /=.
by rewrite /median /= mulr_ge0 ?invr_ge0 ?ler0n // addr_ge0 // nth_ge0.
Qed.

(** X1.  The length scale of the median heuristic is never negative,
    whatever the sample set (it can be zero, see C10). *)
Theorem median_length_scale_ge0 N D (X : 'M[R]_(N, D)) :
  0 <= median (abs (sub_rows X (mean0 X))).
Proof. by apply: median_ge0 => i j; rewrite mxE normr_ge0. Qed.

Lemma mean0_sub_rows N D (X : 'M[R]_(N, D)) (c : 'rV[R]_D) :
  (0 < N)%N -> mean0 (sub_rows X c) = mean0 X - c.
Proof.
move=> N_gt0; apply/rowP => j; rewrite !mxE.
have -> : \sum_i sub_rows X c i j = \sum_i X i j - \sum_(i < N) c 0 j.
  by rewrite -sumrB; apply: eq_bigr => i _; rewrite mxE.
rewrite sumr_const card_ord mulrBl -[c 0 j *+ N]mulr_natr mulfK //.
by rewrite pnatr_eq0 -lt0n.
Qed.

Lemma centered_sub_rows N D (X : 'M[R]_(N, D)) (c : 'rV[R]_D) :
  (0 < N)%N ->
  sub_rows (sub_rows X c) (mean0 (sub_rows X c)) = sub_rows X (mean0 X).
Proof.
move=> N_gt0; rewrite mean0_sub_rows //; apply/matrixP => i j.
by rewrite !mxE opprB addrA subrK.
Qed.


Lemma mean0_scalar_mul N D (s : R) (X : 'M[R]_(N, D)) :
  mean0 (scalar_mul s X) = scalar_mul s (mean0 X).
Proof.
apply/rowP => j; rewrite !mxE mulrA mulr_sumr; congr (_ / _).
by apply: eq_bigr => i _; rewrite mxE.
Qed.

Lemma centered_scalar_mul N D (s : R) (X : 'M[R]_(N, D)) :
  abs (sub_rows (scalar_mul s X) (mean0 (scalar_mul s X)))
  = scalar_mul `|s| (abs (sub_rows X (mean0 X))).
Proof.
rewrite mean0_scalar_mul; apply/matrixP => i j.
by rewrite !mxE -mulrBr normrM.
Qed.

Lemma nth_map0 (f : R -> R) (s : seq R) i :
  f 0 = 0 -> nth 0 [seq f x | x <- s] i = f (nth 0 s i).
Proof.
move=> f0; case: (ltnP i (size s)) => [lt_i | le_i].
  exact: nth_map.
by rewrite !nth_default ?size_map.
Qed.

Lemma sort_scaled (c : R) (s : seq R) :
  0 <= c -> sort <=%R [seq c * x | x <- s] = [seq c * x | x <- sort <=%R s].
Proof.
move=> c_ge0.
have sorted_cs : sorted <=%R [seq c * x | x <- sort <=%R s].
  rewrite sorted_map; apply: sub_sorted (sort_le_sorted s) => x y /=.
  exact: ler_wpM2l.
rewrite -[RHS](sort_le_id sorted_cs); apply/perm_sort_leP.
by rewrite perm_map // perm_sym perm_sort.
Qed.

Lemma median_scalar_mul N D (c : R) (M : 'M[R]_(N, D)) :
  0 <= c -> median (scalar_mul c M) = c * median M.
Proof.
move=> c_ge0.
have ravelE : ravel (scalar_mul c M) = [seq c * x | x <- ravel M].
  rewrite /ravel map_allpairs; apply: eq_allpairs => i j.
  by rewrite mxE.
rewrite /median ravelE /= sort_scaled // size_map !nth_map0 ?mulr0 //.
by rewrite -mulrDr mulrA.
Qed.


Lemma mean0_row_perm N D (s : {perm 'I_N}) (X : 'M[R]_(N, D)) :
  mean0 (row_perm s X) = mean0 X.
Proof.
apply/rowP => j; rewrite !mxE; congr (_ / _).
rewrite [RHS](reindex_perm s) /=.
by apply: eq_bigr => i _; rewrite mxE.
Qed.

Lemma centered_row_perm N D (s : {perm 'I_N}) (X : 'M[R]_(N, D)) :
  abs (sub_rows (row_perm s X) (mean0 (row_perm s X)))
  = row_perm s (abs (sub_rows X (mean0 X))).
Proof. by rewrite mean0_row_perm; apply/matrixP => i j; rewrite !mxE. Qed.

Lemma perm_enum_ord N (s : {perm 'I_N}) :
  perm_eq [seq s i | i <- enum 'I_N] (enum 'I_N).
Proof.
apply: uniq_perm => [||i].
- by rewrite map_inj_uniq ?enum_uniq //; apply: perm_inj.
- exact: enum_uniq.
- rewrite mem_enum; apply/mapP; exists (s^-1%g i); first by rewrite mem_enum.
  by rewrite permKV.
Qed.

Lemma median_row_perm N D (s : {perm 'I_N}) (M : 'M[R]_(N, D)) :
  median (row_perm s M) = median M.
Proof.
have perm_ravel : perm_eq (ravel (row_perm s M)) (ravel M).
  have -> : ravel (row_perm s M)
            = [seq M i j | i <- [seq s i | i <- enum 'I_N], j <- enum 'I_D].
    rewrite allpairs_mapl; apply: eq_allpairs => i j.
    by rewrite mxE.
  by apply: perm_allpairs; rewrite ?perm_enum_ord.
by rewrite /median (perm_sort_leP _ _ perm_ravel).
Qed.


(** ** Quadrature weights *)

Lemma four_step_quadrature_rule (L : Type) N D
    (kernel : 'M[R]_(N, D) -> 'M[R]_(N, D) -> L -> 'M[R]_N)
    (embedding : L -> 'M[R]_(N, D) -> 'rV[R]_N) l X :
  positive_semidefinite (kernel X X l) ->
  quadrature_rule (kernel X X l) (embedding l X)
    (four_step kernel embedding l X).
Proof.
move=> psdK; have unitK := regularized_unit psdK.
set K_reg := _ + _ in unitK.
exists (scalar_mul A (embedding l X) *m invmx K_reg); split.
- by rewrite matmul_vME -/K_reg mulmxKV.
- move=> w'; rewrite matmul_vME -/K_reg => <-.
  by rewrite mulmxK.
- move=> f_X; rewrite matmul_vvE /four_step /=.
  by rewrite /K_reg eps_eyeE !scalar_mulE.
Qed.

Section Weights.

Variables N D : nat.
Variable X : 'M[R]_(N, D).

Let l_median := median (abs (sub_rows X (mean0 X))).

Hypothesis psd_RBF : positive_semidefinite (my_RBF X X l_median).
Hypothesis psd_Matern_32 :
  positive_semidefinite (my_Matern_32 X X l_median).
Hypothesis psd_Matern_12 :
  positive_semidefinite (my_Matern_12 X X l_median).
Hypothesis psd_Matern_12_product :
  positive_semidefinite (my_Matern_12_product X X (const_mx 1)).
Hypothesis psd_Matern_32_product :
  positive_semidefinite (my_Matern_32_product X X (const_mx 3)).
Hypothesis psd_log_RBF : positive_semidefinite (my_log_RBF X X (1 / 10)).


End Weights.

(** ** Reordering the sample points *)

Lemma invmx_out N (M : 'M[R]_N) : M \notin unitmx -> invmx M = M.
Proof. by rewrite /invmx => /negbTE->. Qed.

Lemma invmx_conj N (s : {perm 'I_N}) (M : 'M[R]_N) :
  invmx (perm_mx s *m M *m perm_mx s^-1)
  = perm_mx s *m invmx M *m perm_mx s^-1.
Proof.
have PV : perm_mx s^-1 *m perm_mx s = 1%:M :> 'M[R]_N.
  by rewrite -perm_mxM mulVg perm_mx1.
have VP : perm_mx s *m perm_mx s^-1 = 1%:M :> 'M[R]_N.
  by rewrite -perm_mxM mulgV perm_mx1.
case unitM: (M \in unitmx); last first.
  rewrite !invmx_out ?unitM // !unitmx_mul unitM.
  by rewrite andbF.
have inv_r : perm_mx s *m M *m perm_mx s^-1
             *m (perm_mx s *m invmx M *m perm_mx s^-1) = 1%:M.
  rewrite !mulmxA -[_ *m _ *m perm_mx s]mulmxA PV mulmx1.
  by rewrite -[_ *m M *m _]mulmxA mulmxV // mulmx1.
have [unitPMP _] := mulmx1_unit inv_r.
by rewrite -[LHS]mulmx1 -inv_r mulmxA mulVmx // mul1mx.
Qed.

Lemma four_step_row_perm (L : Type) N D
    (kernel : 'M[R]_(N, D) -> 'M[R]_(N, D) -> L -> 'M[R]_N)
    (embedding : L -> 'M[R]_(N, D) -> 'rV[R]_N)
    (s : {perm 'I_N}) l X (f_X : 'rV[R]_N) :
  gram_equivariant kernel -> embedding_equivariant embedding ->
  four_step kernel embedding l (row_perm s X) (col_perm s f_X)
  = four_step kernel embedding l X f_X.
Proof.
move=> kernel_s embedding_s; rewrite /four_step /= kernel_s embedding_s.
have PV : perm_mx s^-1 *m perm_mx s = 1%:M :> 'M[R]_N.
  by rewrite -perm_mxM mulVg perm_mx1.
have VP : perm_mx s *m perm_mx s^-1 = 1%:M :> 'M[R]_N.
  by rewrite -perm_mxM mulgV perm_mx1.
set K := kernel X X l; set e := (_^-1)%:M.
have -> : 1 *: row_perm s (col_perm s K) + e
          = perm_mx s *m (1 *: K + e) *m perm_mx s^-1.
  rewrite row_permE col_permE !scale1r mulmxDr mulmxDl mulmxA.
  by rewrite /e mul_mx_scalar -scalemxAl VP scalemx1.
rewrite invmx_conj tr_col_perm row_permE !scale1r col_permE.
rewrite !mulmxA -[_ *m perm_mx s^-1 *m perm_mx s]mulmxA PV mulmx1.
by rewrite -[_ *m perm_mx s^-1 *m perm_mx s]mulmxA PV mulmx1.
Qed.

Section Reordering.

Variables N D : nat.

Hypothesis perm_RBF : gram_equivariant (@my_RBF N N D).
Hypothesis perm_Matern_32 : gram_equivariant (@my_Matern_32 N N D).
Hypothesis perm_Matern_12 : gram_equivariant (@my_Matern_12 N N D).
Hypothesis perm_Matern_12_product :
  gram_equivariant (@my_Matern_12_product N N D).
Hypothesis perm_Matern_32_product :
  gram_equivariant (@my_Matern_32_product N N D).
Hypothesis perm_log_RBF : gram_equivariant (@my_log_RBF N N D).
Hypothesis perm_kme_RBF_Gaussian :
  forall mu var, embedding_equivariant (@kme_RBF_Gaussian N D mu var).
Hypothesis perm_kme_RBF_uniform :
  forall a b, embedding_equivariant (@kme_RBF_uniform N D a b).
Hypothesis perm_kme_Matern_32_Gaussian :
  embedding_equivariant (@kme_Matern_32_Gaussian N D).
Hypothesis perm_kme_Matern_12_Gaussian :
  embedding_equivariant (@kme_Matern_12_Gaussian N D).
Hypothesis perm_kme_Matern_32_Uniform :
  forall a b, embedding_equivariant (@kme_Matern_32_Uniform N D a b).
Hypothesis perm_kme_Matern_12_Uniform :
  forall a b, embedding_equivariant (@kme_Matern_12_Uniform N D a b).
Hypothesis perm_kme_log_normal_log_RBF :
  forall mu std,
    embedding_equivariant
      (fun l (X : 'M[R]_(N, D)) => kme_log_normal_log_RBF mu std X l).


End Reordering.

(** ** More on the batched estimators *)

Section MoreBatches.

Variables T N D : nat.
Variables (X : 'I_T -> 'M[R]_(N.+1, D)) (f_X : 'I_T -> 'rV[R]_N.+1).

(** X7.  On a batch of the documented shapes,
    [KQ_Matern_12_Gaussian_Vectorized] returns the [T] single-instance
    estimates of the slices, and [KQ_log_RBF_log_Gaussian_Vectorized]
    returns those of the slices with instance [t] receiving its own
    [mu[t]] and [std[t]]. *)
Theorem remaining_batches_are_slices (mu std : 'rV[R]_T) :
  let Xs := stack_of (fun t => of_mx (X t)) in
  let fs := stack_of (fun t => of_rV (f_X t)) in
  KQ_Matern_12_Gaussian_Vectorized Xs fs
  = Ok (stack_of (fun t => Scalar (KQ_Matern_12_Gaussian (X t) (f_X t))))
  /\ KQ_log_RBF_log_Gaussian_Vectorized Xs fs (of_rV mu) (of_rV std)
     = Ok (stack_of (fun t =>
             Scalar (KQ_log_RBF_log_Gaussian (X t) (f_X t)
                       (mu 0 t) (std 0 t)))).
Proof.
move=> Xs fs; split.
- exact: KQ_Matern_12_Gaussian_Vectorized_slices.
- exact: KQ_log_RBF_log_Gaussian_Vectorized_slices.
Qed.

End MoreBatches.

Lemma vmap_sizes_differ func (axs : seq axis) (args : seq (ndarray R))
    (T T' : nat) (sizes : seq nat) :
  size axs = size args ->
  mapped_sizes axs args = Ok [:: T, T' & sizes] -> T' != T ->
  vmap func axs args = Raise ValueError.
Proof.
move=> size_axs sizesE neqT.
by rewrite /vmap size_axs eqxx /= sizesE /= (negbTE neqT).
Qed.

(** X8.  The five wrappers whose [in_axes] fit their arguments raise
    [ValueError] when [X] and [f_X] disagree on the batch size, whatever
    the other arguments are. *)
Theorem batch_size_mismatch_raises (xs fs : seq (ndarray R))
    (a b : ndarray R) :
  size xs != size fs ->
  [/\ KQ_RBF_Uniform_Vectorized (Stack xs) (Stack fs) a b = Raise ValueError,
      KQ_Matern_12_Uniform_Vectorized (Stack xs) (Stack fs) a b
      = Raise ValueError,
      KQ_Matern_32_Uniform_Vectorized (Stack xs) (Stack fs) a b
      = Raise ValueError,
      KQ_Matern_12_Gaussian_Vectorized (Stack xs) (Stack fs)
      = Raise ValueError
    & KQ_log_RBF_log_Gaussian_Vectorized (Stack xs) (Stack fs) a b
      = Raise ValueError].
Proof.
rewrite eq_sym => neq_size; split.
- exact: (@vmap_sizes_differ _ _ _ (size xs) (size fs) [::]).
- exact: (@vmap_sizes_differ _ _ _ (size xs) (size fs) [::]).
- case: a => [x | a_s]; case: b => [y | b_s] //.
  exact: (@vmap_sizes_differ _ _ _ (size xs) (size fs)
            [:: size a_s; size b_s]).
- exact: (@vmap_sizes_differ _ _ _ (size xs) (size fs) [::]).
- case: a => [x | a_s]; case: b => [y | b_s] //.
  exact: (@vmap_sizes_differ _ _ _ (size xs) (size fs)
            [:: size a_s; size b_s]).
Qed.

(** X9.  The same five wrappers raise [ValueError] when [X] or [f_X] is
    a 0-d array: an argument mapped along axis 0 needs at least one
    axis. *)
Theorem scalar_batch_raises (x : R) (X f_X a b : ndarray R) :
  [/\ KQ_RBF_Uniform_Vectorized (Scalar x) f_X a b = Raise ValueError
      /\ KQ_RBF_Uniform_Vectorized X (Scalar x) a b = Raise ValueError,
      KQ_Matern_12_Uniform_Vectorized (Scalar x) f_X a b = Raise ValueError
      /\ KQ_Matern_12_Uniform_Vectorized X (Scalar x) a b
         = Raise ValueError,
      KQ_Matern_32_Uniform_Vectorized (Scalar x) f_X a b = Raise ValueError
      /\ KQ_Matern_32_Uniform_Vectorized X (Scalar x) a b
         = Raise ValueError,
      KQ_Matern_12_Gaussian_Vectorized (Scalar x) f_X = Raise ValueError
      /\ KQ_Matern_12_Gaussian_Vectorized X (Scalar x) = Raise ValueError
    & KQ_log_RBF_log_Gaussian_Vectorized (Scalar x) f_X a b
      = Raise ValueError
      /\ KQ_log_RBF_log_Gaussian_Vectorized X (Scalar x) a b
         = Raise ValueError].
Proof. by split; split=> //; case: X. Qed.

(** ** Sample sets of rank below two *)

Lemma shape_Scalar_or_rV N (X : ndarray R) :
  (exists x, X = Scalar x) \/ (exists v : 'rV[R]_N, X = of_rV v) ->
  shape X = [::] \/ shape X = [:: N].
Proof.
case=> [[x ->] | [v ->]]; first by left.
by right; rewrite shape_of_rV.
Qed.

(** X10.  Every estimator reads [X.shape[1]] first: called with a 0-d or
    one-dimensional sample set it raises [IndexError], whatever the other
    arguments are. *)
Theorem low_rank_sample_set_raises N (X : ndarray R)
    (f_X p q : ndarray R) :
  (exists x, X = Scalar x) \/ (exists v : 'rV[R]_N, X = of_rV v) ->
  [/\ call_KQ_RBF_Gaussian [:: X; f_X; p; q] = Raise IndexError,
      call_KQ_RBF_Uniform [:: X; f_X; p; q] = Raise IndexError,
      call_KQ_Matern_32_Gaussian [:: X; f_X] = Raise IndexError
    & call_KQ_Matern_12_Gaussian [:: X; f_X] = Raise IndexError]
  /\ [/\ call_KQ_Matern_32_Uniform [:: X; f_X; p; q] = Raise IndexError,
      call_KQ_Matern_12_Uniform [:: X; f_X; p; q] = Raise IndexError
    & call_KQ_log_RBF_log_Gaussian [:: X; f_X; p; q] = Raise IndexError].
Proof.
move=> /shape_Scalar_or_rV shX.
rewrite /call_KQ_RBF_Gaussian /call_KQ_RBF_Uniform
        /call_KQ_Matern_32_Gaussian /call_KQ_Matern_12_Gaussian
        /call_KQ_Matern_32_Uniform /call_KQ_Matern_12_Uniform
        /call_KQ_log_RBF_log_Gaussian.
by case: shX => ->.
Qed.

(** ** One sample point with the median heuristic *)

(** X11.  With a single sample point the four median-heuristic variants
    evaluate the kernel library at length scale [0]: the estimate is
    [A * embedding(params, 0, X)[0] / (A * kernel(X, X, 0)[0, 0] + eps)
    * f_X[0]]. *)
Theorem one_point_median_estimate D (X : 'M[R]_(1, D)) (f_X : 'rV[R]_1) :
  (0 < D)%N ->
  [/\ forall mu var,
        KQ_RBF_Gaussian X f_X mu var
        = A * kme_RBF_Gaussian mu var 0 X 0 0
          / (A * my_RBF X X 0 0 0 + eps) * f_X 0 0,
      forall a b,
        KQ_RBF_Uniform X f_X a b
        = A * kme_RBF_uniform a b 0 X 0 0
          / (A * my_RBF X X 0 0 0 + eps) * f_X 0 0,
      KQ_Matern_32_Gaussian X f_X
      = A * kme_Matern_32_Gaussian 0 X 0 0
        / (A * my_Matern_32 X X 0 0 0 + eps) * f_X 0 0
    & forall a b,
        KQ_Matern_12_Uniform X f_X a b
        = A * kme_Matern_12_Uniform a b 0 X 0 0
          / (A * my_Matern_12 X X 0 0 0 + eps) * f_X 0 0].
Proof.
move=> _.
have l0 : median (abs (sub_rows X (mean0 X))) = 0.
  by apply: median_identical => // i i' j; rewrite [i]ord1 [i']ord1.
split.
- by move=> mu var; rewrite KQ_RBF_Gaussian_body l0 four_step_one_point.
- by move=> a b; rewrite KQ_RBF_Uniform_body l0 four_step_one_point.
- by rewrite KQ_Matern_32_Gaussian_body l0 four_step_one_point.
- by move=> a b; rewrite KQ_Matern_12_Uniform_body l0 four_step_one_point.
Qed.

(** ** Exactness on the regularised kernel sections *)

Lemma four_step_section (L : Type) N D
    (kernel : 'M[R]_(N, D) -> 'M[R]_(N, D) -> L -> 'M[R]_N)
    (embedding : L -> 'M[R]_(N, D) -> 'rV[R]_N) l X (j : 'I_N) :
  positive_semidefinite (kernel X X l) ->
  let K_reg := scalar_mul A (kernel X X l) + scalar_mul eps (eye R N) in
  four_step kernel embedding l X (\row_i K_reg i j)
  = A * embedding l X 0 j.
Proof.
move=> psdK K_reg; have unitK : K_reg \in unitmx by apply: regularized_unit.
have -> : \row_i K_reg i j = (col j K_reg)^T.
  by apply/rowP => i; rewrite !mxE.
rewrite /four_step /= trmxK -[_ + _%:M]/(1 *: kernel X X l + eps%:M).
have <- : K_reg = 1 *: kernel X X l + eps%:M.
  by rewrite /K_reg eps_eyeE scalar_mulE.
by rewrite colE -mulmxA mulKmx // -colE !mxE.
Qed.

Section Exactness.

Variables N D : nat.
Variable X : 'M[R]_(N, D).
Variable j : 'I_N.

Let l_median := median (abs (sub_rows X (mean0 X))).

(** The entries [K_reg[:, j]] of column [j] of [A * K + eps * eye(N)]. *)
Let section_of (K : 'M[R]_N) : 'rV[R]_N :=
  \row_i (scalar_mul A K + scalar_mul eps (eye R N)) i j.

Hypothesis psd_RBF : positive_semidefinite (my_RBF X X l_median).
Hypothesis psd_Matern_32 :
  positive_semidefinite (my_Matern_32 X X l_median).
Hypothesis psd_Matern_12 :
  positive_semidefinite (my_Matern_12 X X l_median).
Hypothesis psd_Matern_12_product :
  positive_semidefinite (my_Matern_12_product X X (const_mx 1)).
Hypothesis psd_Matern_32_product :
  positive_semidefinite (my_Matern_32_product X X (const_mx 3)).
Hypothesis psd_log_RBF : positive_semidefinite (my_log_RBF X X (1 / 10)).


End Exactness.

End KernelMeans.

(** ** A concrete run over the rationals

    Two identical sample points [x1 = x2 = 1] in dimension one, with the
    linear kernel [k(x, y) = x y]: the raw Gram matrix is the singular
    all-ones matrix. *)

Lemma gram_symmetric (R : realFieldType) N D (X : 'M[R]_(N, D)) :
  symmetric (X *m X^T).
Proof. by rewrite /symmetric trmx_mul trmxK. Qed.

Lemma gram_positive_semidefinite (R : realFieldType) N D
    (X : 'M[R]_(N, D)) :
  positive_semidefinite (X *m X^T).
Proof.
by move=> v; rewrite mulmxA -mulmxA -trmx_mul norm2_ge0.
Qed.

Lemma two_identical_points_singular :
  (const_mx 1 : 'M[rat]_(2, 1)) *m (const_mx 1)^T \notin unitmx.
Proof.
rewrite unitmxE (@determinant_alternate _ _ _ ord0 (lift ord0 ord0)) //.
by move=> j; rewrite !mxE; apply: eq_bigr => k _; rewrite !mxE.
Qed.



(** ** Facts about the small kernel library *)

Section ExampleKernelFacts.

Variable R : realFieldType.

Lemma linear_kernel_psd N D (X : 'M[R]_(N, D)) (l : R) :
  0 <= l -> positive_semidefinite (linear_kernel X X l).
Proof.
move=> l_ge0 v; rewrite /linear_kernel mulmxDr mulmxDl mxE addr_ge0 //.
  by rewrite mulmxA -mulmxA -trmx_mul norm2_ge0.
have -> : (v *m const_mx l *m v^T) 0 0 = l * (\sum_i v 0 i) ^+ 2.
  rewrite mxE expr2 mulrA mulr_sumr; apply: eq_bigr => j _.
  rewrite !mxE; congr (_ * _).
  by rewrite mulr_sumr; apply: eq_bigr => i _; rewrite mxE mulrC.
by rewrite mulr_ge0 // sqr_ge0.
Qed.

Lemma weighted_kernel_psd N D (X : 'M[R]_(N, D)) (l : 'rV[R]_D) :
  (forall d, 0 <= l 0 d) -> positive_semidefinite (weighted_kernel X X l).
Proof.
move=> l_ge0 v; rewrite /weighted_kernel !mulmxA -[_ *m X^T *m _]mulmxA.
rewrite -trmx_mul; set u := v *m X.
rewrite mxE; apply: sumr_ge0 => d _.
by rewrite mul_mx_diag !mxE mulrAC -expr2 mulr_ge0 // sqr_ge0.
Qed.

Lemma linear_kernel_equivariant N D :
  gram_equivariant (@linear_kernel R N N D).
Proof.
move=> s X l; rewrite /linear_kernel; apply/matrixP => i j.
by rewrite !mxE; congr (_ + _); apply: eq_bigr => k _; rewrite !mxE.
Qed.

Lemma weighted_kernel_equivariant N D :
  gram_equivariant (@weighted_kernel R N N D).
Proof.
move=> s X l; rewrite /weighted_kernel; apply/matrixP => i j.
rewrite !mxE; apply: eq_bigr => k _; rewrite !mxE; congr (_ * _).
by apply: eq_bigr => k' _; rewrite !mxE.
Qed.

Lemma sum_embedding_equivariant (L : Type) N D (c : L -> R) :
  embedding_equivariant
    (fun l (X : 'M[R]_(N, D)) => sum_embedding (c l) X).
Proof.
move=> s l X; apply/rowP => i; rewrite !mxE; congr (_ + _).
by apply: eq_bigr => k _; rewrite mxE.
Qed.

Lemma median_abs_ge0 N D (M : 'M[R]_(N, D)) : 0 <= median (abs M).
Proof. by apply: median_ge0 => i j; rewrite mxE. Qed.

End ExampleKernelFacts.


(** ** Runs on the small kernel library, over the rationals *)






Lemma batch_size_mismatch_raises_witness :
  let xs : seq (ndarray rat) := [:: of_mx (const_mx 1 : 'M[rat]_(2, 1))] in
  let fs : seq (ndarray rat) := [::] in
  size xs != size fs
  /\ KQ_RBF_Uniform_Vectorized (@linear_kernel rat) (@ex_kme_uniform rat)
       (Stack xs) (Stack fs) (Scalar 0) (Scalar 1)
     = Raise ValueError.
Proof.
move=> xs fs; split; first by [].
have [raises _ _ _ _] :=
  @batch_size_mismatch_raises rat
    (@linear_kernel rat) (@linear_kernel rat)
    (@weighted_kernel rat) (@weighted_kernel rat) (@linear_kernel rat)
    (@ex_kme_uniform rat) (@ex_kme_product_Gaussian rat)
    (@ex_kme_product_Uniform rat) (@ex_kme_uniform rat)
    (@ex_kme_log_normal rat)
    xs fs (Scalar 0) (Scalar 1) isT.
exact: raises.
Defined.

Lemma one_point_median_estimate_witness :
  let X : 'M[rat]_(1, 1) := const_mx 2 in
  let f_X : 'rV[rat]_1 := const_mx 3 in
  (0 < 1)%N
  /\ forall a b,
       KQ_RBF_Uniform (@linear_kernel rat) (@ex_kme_uniform rat) X f_X a b
       = A rat * ex_kme_uniform a b 0 X 0 0
         / (A rat * linear_kernel X X 0 0 0 + eps rat) * f_X 0 0.
Proof.
move=> X f_X; split; first by [].
have [_ unif _ _] :=
  @one_point_median_estimate rat
    (@linear_kernel rat) (@linear_kernel rat) (@linear_kernel rat)
    (@ex_kme_RBF_Gaussian rat) (@ex_kme_uniform rat) (@ex_kme_Gaussian rat)
    (@ex_kme_uniform rat) 1 X f_X isT.
exact: unif.
Defined.


Lemma low_rank_sample_set_raises_witness :
  let X : ndarray rat := of_rV (const_mx 1 : 'rV[rat]_3) in
  ((exists x, X = Scalar x) \/ (exists v : 'rV[rat]_3, X = of_rV v))
  /\ call_KQ_RBF_Uniform (@linear_kernel rat) (@ex_kme_uniform rat)
       [:: X; Scalar 0; Scalar 0; Scalar 1]
     = Raise IndexError.
Proof.
move=> X.
have rank1 : (exists x, X = Scalar x) \/ (exists v : 'rV[rat]_3, X = of_rV v).
  by right; exists (const_mx 1).
split; first exact: rank1.
have [[_ unif _ _] _] :=
  @low_rank_sample_set_raises rat
    (@linear_kernel rat) (@linear_kernel rat) (@linear_kernel rat)
    (@weighted_kernel rat) (@weighted_kernel rat) (@linear_kernel rat)
    (@ex_kme_RBF_Gaussian rat) (@ex_kme_uniform rat) (@ex_kme_Gaussian rat)
    (@ex_kme_product_Gaussian rat) (@ex_kme_product_Uniform rat)
    (@ex_kme_uniform rat) (@ex_kme_log_normal rat)
    3 X (Scalar 0) (Scalar 0) (Scalar 1) rank1.
exact: unif.
Defined.
